(** * Invoice computation core of Invoice-Streamlit (src/lib/invoice.ts)

    Shallow embedding of [calculateTotals], [sanitizeText],
    [normalizeDescText], [descToLines], [paymentIntegrityStatus] and
    [formatRupiah], and of the invoice page that calls them
    (src/components/packages/PackagesClient.tsx, [InvoiceClient]): its cart
    operations, its payment-schedule buttons and its description preview.

    Modelling choices:
    - a JavaScript string is the list of its UTF-16 code units ([jsstr],
      a [list N]); [str] turns an ASCII literal into one;
    - a JavaScript [number] is an exact rational ([Q]): the finite values
      the callers pass; NaN, the infinities and IEEE rounding are outside
      the model, so numeric equalities are stated with [Qeq] ([==]);
    - a global regular-expression replacement is a structural recursion
      that scans left to right and resumes after each match, as
      [String.prototype.replace] with the [g] flag does. *)

From Stdlib Require Import Ascii String.
From Stdlib Require Import List NArith ZArith QArith Qminmax Qround Qabs.
From Stdlib Require Import Permutation Lia Bool Lqa.
Import ListNotations.
Open Scope list_scope.

Definition jsstr := list N.

Definition str (s : string) : jsstr := map N_of_ascii (list_ascii_of_string s).

(** ** Line items and totals (invoice.ts, lines 3-31) *)

Record InvoiceItem := mkItem {
  id : jsstr;
  rowId : jsstr;
  description : jsstr;
  details : option jsstr;
  price : Q;
  qty : Q
}.

Record Totals := mkTotals { subtotal : Q; grandTotal : Q }.

(** [items.reduce((acc, item) => acc + item.price * Math.max(1, item.qty), 0)] *)
Definition subtotal_step (acc : Q) (item : InvoiceItem) : Q :=
  acc + price item * Qmax 1 (qty item).

Definition calculateTotals (items : list InvoiceItem) (cashback : Q) : Totals :=
  let subtotal := fold_left subtotal_step items 0 in
  let safeCashback := Qmax 0 cashback in
  let grandTotal := Qmax 0 (subtotal - safeCashback) in
  mkTotals subtotal grandTotal.

(** The sum over the items of [price * max(1, qty)], written as a right
    fold: the subtotal the spec describes. *)
Definition items_sum (items : list InvoiceItem) : Q :=
  fold_right (fun item s => price item * Qmax 1 (qty item) + s) 0 items.


(** ** Currency formatting (invoice.ts, lines 86-89) *)

(** Decimal digits of a natural number; [fuel] bounds the digit count. *)
Fixpoint digits_aux (fuel : nat) (n : N) (acc : jsstr) : jsstr :=
  match fuel with
  | O => acc
  | S f =>
      let acc' := (48 + n mod 10)%N :: acc in
      if (n <? 10)%N then acc' else digits_aux f (n / 10)%N acc'
  end.

Definition digits (n : N) : jsstr := digits_aux (S (N.size_nat n)) n [].

Definition pad3 (n : N) : jsstr :=
  let ds := digits n in repeat 48%N (3 - length ds) ++ ds.

(** Thousands grouping with '.', as the [id-ID] locale renders integers. *)
Fixpoint group_aux (fuel : nat) (n : N) : jsstr :=
  match fuel with
  | O => digits n
  | S f =>
      if (n <? 1000)%N then digits n
      else group_aux f (n / 1000)%N ++ [46%N] ++ pad3 (n mod 1000)%N
  end.

(** [intVal.toLocaleString('id-ID')] for an integer [intVal]. *)
Definition toLocaleString_id (z : Z) : jsstr :=
  (if (z <? 0)%Z then [45%N] else [])
    ++ group_aux (S (N.size_nat (Z.abs_N z))) (Z.abs_N z).

(** [Math.round]: the nearest integer, halves rounded up. *)
Definition Math_round (v : Q) : Z := Qfloor (v + (1 # 2)).

(** [Number.isFinite(value)] always holds for a rational. *)
Definition formatRupiah (value : Q) : jsstr :=
  let intVal := Math_round value in
  str "Rp " ++ toLocaleString_id intVal.

(** ** Payment integrity (invoice.ts, lines 76-84) *)

Inductive Status := INFO | BALANCED | UNALLOCATED | OVER.

Record IntegrityResult := mkResult {
  status : Status;
  message : jsstr;
  balance : Q
}.

Definition paymentIntegrityStatus (grandTotal dp1 t2 t3 full : Q) : IntegrityResult :=
  let totalScheduled := dp1 + t2 + t3 + full in
  let balance := inject_Z (Qfloor grandTotal) - totalScheduled in
  if Qle_bool grandTotal 0 then
    mkResult INFO (str "Add items to cart to calculate payments.") balance
  else if Qeq_bool balance 0 then
    mkResult BALANCED (str "Schedule matches Grand Total.") balance
  else if negb (Qle_bool balance 0) then
    mkResult UNALLOCATED (formatRupiah balance ++ str " remaining.") balance
  else
    mkResult OVER (formatRupiah (Qabs balance) ++ str " excess.") balance.

(** ** Text primitives *)

(** The code units removed by [String.prototype.trim] and matched by the
    regular-expression class [\s]: WhiteSpace and LineTerminator. *)
Definition isWS (c : N) : bool :=
  (c =? 9)%N || (c =? 10)%N || (c =? 11)%N || (c =? 12)%N || (c =? 13)%N
  || (c =? 32)%N || (c =? 160)%N || (c =? 5760)%N
  || ((8192 <=? c)%N && (c <=? 8202)%N)
  || (c =? 8232)%N || (c =? 8233)%N || (c =? 8239)%N || (c =? 8287)%N
  || (c =? 12288)%N || (c =? 65279)%N.

Fixpoint trimStart (s : jsstr) : jsstr :=
  match s with
  | c :: t => if isWS c then trimStart t else s
  | [] => []
  end.

Definition trimEnd (s : jsstr) : jsstr := rev (trimStart (rev s)).

Definition trim (s : jsstr) : jsstr := trimEnd (trimStart s).

(** [s.replace(/abcd/g, r)] for a four-unit pattern [abcd]. *)
Fixpoint replace4 (e1 e2 e3 e4 r : N) (s : jsstr) : jsstr :=
  match s with
  | a :: ((b :: c :: d :: t) as u) =>
      if (a =? e1)%N && (b =? e2)%N && (c =? e3)%N && (d =? e4)%N
      then r :: replace4 e1 e2 e3 e4 r t
      else a :: replace4 e1 e2 e3 e4 r u
  | a :: u => a :: replace4 e1 e2 e3 e4 r u
  | [] => []
  end.

(** [.replace(/&lt;/g, '<')] and [.replace(/&gt;/g, '>')] *)
Definition replace_lt : jsstr -> jsstr := replace4 38 108 116 59 60.
Definition replace_gt : jsstr -> jsstr := replace4 38 103 116 59 62.

(** [.replace(/\r\n/g, '\n')] *)
Fixpoint replace_crlf (s : jsstr) : jsstr :=
  match s with
  | a :: ((b :: t) as u) =>
      if (a =? 13)%N && (b =? 10)%N then 10%N :: replace_crlf t
      else a :: replace_crlf u
  | a :: u => a :: replace_crlf u
  | [] => []
  end.

(** [.replace(/\r/g, '\n')] *)
Definition replace_cr (s : jsstr) : jsstr :=
  map (fun c => if (c =? 13)%N then 10%N else c) s.

(** ** normalizeDescText (invoice.ts, lines 43-61) *)

(** [toLowerCase] on one code unit; no code unit outside [A-Z] lowercases
    to ['b'] or ['r'], the only letters the code compares with. *)
Definition lower (c : N) : N :=
  if (65 <=? c)%N && (c <=? 90)%N then (c + 32)%N else c.

(** [s[i] === '<' && s.slice(i, i + 3).toLowerCase() === '<br'], where [s]
    is the text from index [i] on. *)
Definition is_br_open (s : jsstr) : bool :=
  match s with
  | a :: b :: c :: _ => (a =? 60)%N && (lower b =? 98)%N && (lower c =? 114)%N
  | _ => false
  end.

(** The inner [while] loop: the text after the first ['>'], if any. *)
Fixpoint after_gt (s : jsstr) : option jsstr :=
  match s with
  | [] => None
  | c :: t => if (c =? 62)%N then Some t else after_gt t
  end.

(** The [for] loop, with the text from index [i] on as its state: a
    [<br ... >] run pushes ['\n'] and resumes after the ['>']; any other
    position pushes [s[i]] and resumes at [i + 1].  [fuel] is the length
    of the text, which bounds the number of iterations. *)
Fixpoint br_loop (fuel : nat) (s : jsstr) : jsstr :=
  match fuel, s with
  | _, [] => []
  | O, _ => s
  | S f, c :: t =>
      if is_br_open s then
        match after_gt (skipn 3 s) with
        | Some rest => 10%N :: br_loop f rest
        | None => c :: br_loop f t
        end
      else c :: br_loop f t
  end.

Definition br_pass (s : jsstr) : jsstr := br_loop (length s) s.

(** [raw] is [None] for [undefined]; [if (!raw) return ''] *)
Definition normalizeDescText (raw : option jsstr) : jsstr :=
  match raw with
  | None | Some [] => []
  | Some r =>
      let s := replace_gt (replace_lt r) in
      let s := br_pass s in
      trim (replace_cr (replace_crlf s))
  end.

(** ** descToLines (invoice.ts, lines 63-74) *)

(** [s.split(sep)] *)
Fixpoint split_on (sep : N) (s : jsstr) : list jsstr :=
  match s with
  | [] => [[]]
  | c :: t =>
      if (c =? sep)%N then [] :: split_on sep t
      else match split_on sep t with
           | w :: ws => (c :: w) :: ws
           | [] => [[c]]
           end
  end.

(** The markers of the character class [[-•·]]. *)
Definition is_bullet (c : N) : bool :=
  (c =? 45)%N || (c =? 8226)%N || (c =? 183)%N.

(** [line.replace(/^[-•·]\s*/, '')]: one marker at the start and the
    greedy run of whitespace after it. *)
Definition strip_bullet (line : jsstr) : jsstr :=
  match line with
  | c :: t => if is_bullet c then trimStart t else line
  | [] => []
  end.

(** The [forEach] callback, pushing onto [lines]. *)
Definition push_line (lines : list jsstr) (line : jsstr) : list jsstr :=
  match line with
  | [] => lines
  | _ =>
      let cleaned := trim (strip_bullet line) in
      match cleaned with
      | [] => lines
      | _ => lines ++ [cleaned]
      end
  end.

Definition descToLines (desc : option jsstr) : list jsstr :=
  let d := match desc with Some s => s | None => [] end in
  fold_left push_line (map trim (split_on 10 d)) [].

(** ** Auxiliary notions for the statements *)

(** [s.startsWith(p)] *)
Fixpoint prefixb (p s : jsstr) : bool :=
  match p, s with
  | [], _ => true
  | _ :: _, [] => false
  | x :: p', y :: s' => (x =? y)%N && prefixb p' s'
  end.

(** [s.includes(p)] *)
Fixpoint occurs (p s : jsstr) : bool :=
  prefixb p s || match s with [] => false | _ :: t => occurs p t end.

Definition ent_lt : jsstr := [38; 108; 116; 59]%N.
Definition ent_gt : jsstr := [38; 103; 116; 59]%N.

(** The text still holds a [<br ... >] run: a [<br] opener with a ['>']
    somewhere after it. *)
Fixpoint has_br_tag (s : jsstr) : bool :=
  match s with
  | [] => false
  | _ :: t =>
      (is_br_open s
       && match after_gt (skipn 3 s) with Some _ => true | None => false end)
      || has_br_tag t
  end.

(** The line-break replacement as the spec words it: every run made of
    [<br] (any case), the characters up to the next ['>'] and that ['>']
    becomes one ['\n'], scanning from the left; every other character is
    kept. *)
Definition opens_closed_tag (s : jsstr) : Prop :=
  exists b r name rest,
    s = 60%N :: b :: r :: name ++ 62%N :: rest
    /\ lower b = 98%N /\ lower r = 114%N /\ ~ In 62%N name.

Inductive br_replaced : jsstr -> jsstr -> Prop :=
| br_done : br_replaced [] []
| br_tag : forall b r name rest o,
    lower b = 98%N -> lower r = 114%N -> ~ In 62%N name ->
    br_replaced rest o ->
    br_replaced (60%N :: b :: r :: name ++ 62%N :: rest) (10%N :: o)
| br_keep : forall c t o,
    ~ opens_closed_tag (c :: t) ->
    br_replaced t o ->
    br_replaced (c :: t) (c :: o).

(** [segments.join(sep)] *)
Fixpoint join (sep : N) (segs : list jsstr) : jsstr :=
  match segs with
  | [] => []
  | [w] => w
  | w :: ws => w ++ sep :: join sep ws
  end.

(** The marker removal as the spec words it: one leading marker and all
    the whitespace after it, or nothing when the line does not start with
    a marker. *)
Definition strip_marker_spec (line out : jsstr) : Prop :=
  (exists m w, is_bullet m = true /\ forallb isWS w = true
               /\ line = m :: w ++ out /\ trimStart out = out)
  \/ ((line = [] \/ is_bullet (hd 0%N line) = false) /\ out = line).

(** What one segment of the split input contributes to the result. *)
Definition segment_lines (seg : jsstr) : list jsstr :=
  match trim seg with
  | [] => []
  | line =>
      match trim (strip_bullet line) with
      | [] => []
      | cleaned => [cleaned]
      end
  end.

(** ** HTML escaping (invoice.ts, lines 33-41) *)

(** [s.replace(/c/g, r)] for a one-character pattern [c]. *)
Fixpoint replace_char (c : N) (r s : jsstr) : jsstr :=
  match s with
  | [] => []
  | x :: t => if (x =? c)%N then r ++ replace_char c r t else x :: replace_char c r t
  end.

Definition sanitizeText (input : option jsstr) : jsstr :=
  match input with
  | None | Some [] => []
  | Some s =>
      replace_char 39 (str "&#x27;")
        (replace_char 34 (str "&quot;")
           (replace_char 62 (str "&gt;")
              (replace_char 60 (str "&lt;")
                 (replace_char 38 (str "&amp;") s))))
  end.

(** ** The invoice page (PackagesClient.tsx, [InvoiceClient], lines 244-305) *)

(** [const rowId = String(pkg.id)] is [newRowId] below, the record field
    [rowId] keeping its name. *)







(** The four payment slots of the page: [dp1], [t2], [t3], [full]. *)
Record Schedule := mkSchedule { dp1 : Q; t2 : Q; t3 : Q; full : Q }.

(** [autoSplit()], for the current [grandTotal]. *)
Definition autoSplit (grandTotal : Q) (s : Schedule) : Schedule :=
  if Qle_bool grandTotal 0 then s
  else
    let q := inject_Z (Qfloor (grandTotal / 4)) in
    mkSchedule q q q (grandTotal - q * 3).

(** [fillRemaining()], for the current [grandTotal]. *)
Definition fillRemaining (grandTotal : Q) (s : Schedule) : Schedule :=
  if Qle_bool grandTotal 0 then s
  else
    let currentPaid := dp1 s + t2 s + t3 s in
    let remaining := Qmax 0 (grandTotal - currentPaid) in
    mkSchedule (dp1 s) (t2 s) (t3 s) remaining.

(** [integrity]: the status the page shows for a schedule. *)
Definition integrity (grandTotal : Q) (s : Schedule) : IntegrityResult :=
  paymentIntegrityStatus grandTotal (dp1 s) (t2 s) (t3 s) (full s).

(** [segments.join(sep)] for a separator string. *)
Fixpoint join_with (sep : jsstr) (segs : list jsstr) : jsstr :=
  match segs with
  | [] => []
  | [w] => w
  | w :: ws => w ++ sep ++ join_with sep ws
  end.

(** The description preview of a catalogue card and of a cart row:
    [descToLines(normalizeDescText(d)).slice(0, 3).join(' • ') || 'No details'] *)
Definition descPreview (d : option jsstr) : jsstr :=
  match join_with [32; 8226; 32]%N (firstn 3 (descToLines (Some (normalizeDescText d)))) with
  | [] => str "No details"
  | s => s
  end.

(** The entity [sanitizeText] writes for one character. *)
Definition escape_char (c : N) : jsstr :=
  if (c =? 38)%N then str "&amp;"
  else if (c =? 60)%N then str "&lt;"
  else if (c =? 62)%N then str "&gt;"
  else if (c =? 34)%N then str "&quot;"
  else if (c =? 39)%N then str "&#x27;"
  else [c].

(** The replacement chain of [sanitizeText], without its empty-input test. *)
Definition sanitize_chain (s : jsstr) : jsstr :=
  replace_char 39 (str "&#x27;")
    (replace_char 34 (str "&quot;")
       (replace_char 62 (str "&gt;")
          (replace_char 60 (str "&lt;")
             (replace_char 38 (str "&amp;") s)))).





(** * Totals *)

Module TotalsFacts.

Lemma fold_subtotal (items : list InvoiceItem) (a : Q) :
  fold_left subtotal_step items a == a + items_sum items.
Proof.
  revert a; induction items as [|item items IH]; intros a; simpl.
  - ring.
  - rewrite IH. unfold subtotal_step. ring.
Qed.



(** C1: the subtotal is the sum of [price * max(1, qty)], the grand total
    is [max(0, subtotal - max(0, cashback))] and is never negative. *)
Theorem calculateTotals_spec (items : list InvoiceItem) (cashback : Q) :
  subtotal (calculateTotals items cashback) == items_sum items
  /\ grandTotal (calculateTotals items cashback)
     = Qmax 0 (subtotal (calculateTotals items cashback) - Qmax 0 cashback)
  /\ 0 <= grandTotal (calculateTotals items cashback).
Proof.
  split; [|split].
  - simpl. rewrite fold_subtotal. ring.
  - reflexivity.
  - simpl. apply Q.le_max_l.
Qed.



End TotalsFacts.

(** * Payment integrity *)

Module PaymentFacts.

Lemma Qle_bool_false (x y : Q) : Qle_bool x y = false -> y < x.
Proof.
  intros H. apply Qnot_le_lt. intros Hle. apply Qle_bool_iff in Hle. congruence.
Qed.

Lemma Qeq_bool_false (x y : Q) : Qeq_bool x y = false -> ~ x == y.
Proof.
  intros H Heq. apply Qeq_bool_iff in Heq. congruence.
Qed.

(** C2: the balance is [floor(grandTotal)] minus the sum of the four
    slots; a grand total of 100.9 against a schedule summing to 100 is
    balanced. *)
Theorem paymentIntegrityStatus_balance :
  (forall grandTotal dp1 t2 t3 full : Q,
      balance (paymentIntegrityStatus grandTotal dp1 t2 t3 full)
      = inject_Z (Qfloor grandTotal) - (dp1 + t2 + t3 + full))
  /\ (forall dp1 t2 t3 full : Q,
      dp1 + t2 + t3 + full == 100 ->
      balance (paymentIntegrityStatus (1009 # 10) dp1 t2 t3 full) == 0
      /\ status (paymentIntegrityStatus (1009 # 10) dp1 t2 t3 full) = BALANCED).
Proof.
  split.
  - intros. unfold paymentIntegrityStatus.
    destruct (Qle_bool _ 0); [reflexivity|].
    destruct (Qeq_bool _ 0); [reflexivity|].
    destruct (negb _); reflexivity.
  - intros dp1 t2 t3 full Hs.
    assert (Hb : inject_Z (Qfloor (1009 # 10)) - (dp1 + t2 + t3 + full) == 0)
      by (rewrite Hs; reflexivity).
    unfold paymentIntegrityStatus.
    change (Qle_bool (1009 # 10) 0) with false. cbv iota.
    apply Qeq_bool_iff in Hb as Hb'. rewrite Hb'. simpl.
    split; [exact Hb | reflexivity].
Qed.

Lemma paymentIntegrityStatus_balance_witness :
  (25 + 25 + 25 + 25 == 100)
  /\ balance (paymentIntegrityStatus (1009 # 10) 25 25 25 25) == 0
  /\ status (paymentIntegrityStatus (1009 # 10) 25 25 25 25) = BALANCED.
Proof.
  split; [reflexivity|].
  apply (proj2 paymentIntegrityStatus_balance). reflexivity.
Defined.

(** C3: a non-positive grand total gives [INFO] with the computed balance;
    a positive one gives exactly one of [BALANCED], [UNALLOCATED], [OVER],
    with a zero, positive or negative balance respectively. *)
Theorem paymentIntegrityStatus_classify (grandTotal dp1 t2 t3 full : Q) :
  (grandTotal <= 0 ->
     status (paymentIntegrityStatus grandTotal dp1 t2 t3 full) = INFO
     /\ balance (paymentIntegrityStatus grandTotal dp1 t2 t3 full)
        = inject_Z (Qfloor grandTotal) - (dp1 + t2 + t3 + full))
  /\ (0 < grandTotal ->
     let r := paymentIntegrityStatus grandTotal dp1 t2 t3 full in
     status r <> INFO
     /\ (status r = BALANCED <-> balance r == 0)
     /\ (status r = UNALLOCATED <-> 0 < balance r)
     /\ (status r = OVER <-> balance r < 0)).
Proof.
  unfold paymentIntegrityStatus.
  set (b := inject_Z (Qfloor grandTotal) - (dp1 + t2 + t3 + full)).
  destruct (Qle_bool grandTotal 0) eqn:Eg.
  - split.
    + intros _. split; reflexivity.
    + intros Hpos. apply Qle_bool_iff in Eg.
      exfalso. exact (Qlt_not_le _ _ Hpos Eg).
  - split.
    + intros Hle. apply Qle_bool_iff in Hle. congruence.
    + intros _.
      destruct (Qeq_bool b 0) eqn:E0; simpl.
      * apply Qeq_bool_iff in E0.
        split; [discriminate|].
        split; [split; [intros _; exact E0 | reflexivity]|].
        split; split; try discriminate; intros H; rewrite E0 in H;
          exfalso; exact (Qlt_irrefl _ H).
      * apply Qeq_bool_false in E0.
        destruct (Qle_bool b 0) eqn:E1; simpl.
        -- apply Qle_bool_iff in E1.
           assert (Hneg : b < 0)
             by (destruct (Qle_lt_or_eq _ _ E1); [assumption | contradiction]).
           split; [discriminate|].
           split; [split; [discriminate | intros H; contradiction]|].
           split; [split; [discriminate | intros H] | split; intros _;
                   [exact Hneg | reflexivity]].
           exfalso. exact (Qlt_not_le _ _ H E1).
        -- apply Qle_bool_false in E1.
           split; [discriminate|].
           split; [split; [discriminate | intros H; contradiction]|].
           split; [split; intros _; [exact E1 | reflexivity]|].
           split; [discriminate | intros H].
           exfalso. exact (Qlt_not_le _ _ H (Qlt_le_weak _ _ E1)).
Qed.

Lemma paymentIntegrityStatus_classify_witness :
  0 < 1000
  /\ status (paymentIntegrityStatus 1000 100 100 100 100) = UNALLOCATED
  /\ 0 < balance (paymentIntegrityStatus 1000 100 100 100 100).
Proof.
  assert (H : 0 < 1000) by reflexivity.
  split; [exact H|].
  destruct (proj2 (paymentIntegrityStatus_classify 1000 100 100 100 100) H)
    as [_ [_ [HU _]]].
  split; [reflexivity | apply HU; reflexivity].
Defined.

End PaymentFacts.

(** * Text: prefixes, occurrences and stepwise rewriting *)

Module TextFacts.

Lemma prefixb_app (p s : jsstr) : prefixb p s = true -> exists t, s = p ++ t.
Proof.
  revert s; induction p as [|x p IH]; intros s H; [exists s; reflexivity|].
  destruct s as [|y s]; [discriminate|]. simpl in H.
  apply andb_prop in H as [Hxy Hp]. apply N.eqb_eq in Hxy. subst y.
  destruct (IH s Hp) as [t ->]. exists t. reflexivity.
Qed.

Lemma prefixb_app_r (p s t : jsstr) :
  prefixb p s = true -> prefixb p (s ++ t) = true.
Proof.
  revert s; induction p as [|x p IH]; intros [|y s] H; simpl in *;
    try reflexivity; try discriminate.
  apply andb_prop in H as [H1 H2]. rewrite H1, (IH _ H2). reflexivity.
Qed.

Lemma occurs_app_l (p a s : jsstr) : occurs p s = true -> occurs p (a ++ s) = true.
Proof.
  induction a as [|c a IH]; simpl; intros H; [exact H|].
  rewrite (IH H). apply orb_true_r.
Qed.

Lemma occurs_app_r (p s b : jsstr) : occurs p s = true -> occurs p (s ++ b) = true.
Proof.
  induction s as [|c s IH]; intros H.
  - destruct p; simpl in *; [destruct b; reflexivity | discriminate].
  - simpl in H |- *. apply orb_true_iff in H as [H|H].
    + change (c :: s ++ b) with ((c :: s) ++ b).
      rewrite (prefixb_app_r _ _ _ H). reflexivity.
    + rewrite (IH H). apply orb_true_r.
Qed.

Lemma occurs_cons (p : jsstr) (c : N) (s : jsstr) :
  occurs p (c :: s) = prefixb p (c :: s) || occurs p s.
Proof. reflexivity. Qed.

Lemma prefixb_cons (x : N) (p : jsstr) (c : N) (s : jsstr) :
  prefixb (x :: p) (c :: s) = (x =? c)%N && prefixb p s.
Proof. reflexivity. Qed.

Lemma occurs_cons_false (p : jsstr) (c : N) (s : jsstr) :
  occurs p (c :: s) = false -> prefixb p (c :: s) = false /\ occurs p s = false.
Proof. simpl. intros H. apply orb_false_iff in H. exact H. Qed.

(** A rewriting pass that, at each step, either copies one code unit or
    replaces a non-empty stretch of the text by the single unit [r]. *)
Section Stepwise.

Variable f : jsstr -> jsstr.
Variable r : N.
Hypothesis f_step : forall s,
  (s = [] /\ f s = [])
  \/ (exists c t, s = c :: t /\ f s = c :: f t)
  \/ (exists u t, u <> [] /\ s = u ++ t /\ f s = r :: f t).

Lemma stepwise_prefix (q s : jsstr) :
  ~ In r q -> prefixb q (f s) = true -> prefixb q s = true.
Proof.
  revert s; induction q as [|x q IH]; intros s Hr H; [reflexivity|].
  destruct (f_step s) as [[-> E]|[[c [t [-> E]]]|[u [t [_ [-> E]]]]]];
    rewrite E in H; simpl in H.
  - discriminate.
  - apply andb_prop in H as [Hx Hq]. simpl. rewrite Hx, (IH t); [reflexivity| |exact Hq].
    intros Hin. apply Hr. right. exact Hin.
  - apply andb_prop in H as [Hx _]. apply N.eqb_eq in Hx. subst x.
    exfalso. apply Hr. left. reflexivity.
Qed.

Lemma stepwise_occurs (p s : jsstr) :
  p <> [] -> ~ In r p -> occurs p (f s) = true -> occurs p s = true.
Proof.
  intros Hp Hr. remember (length s) as n eqn:Hn. revert s Hn.
  induction n as [n IH] using (well_founded_induction lt_wf). intros s Hn H.
  destruct (f_step s) as [[-> E]|[[c [t [-> E]]]|[u [t [Hu [-> E]]]]]];
    rewrite E in H.
  - destruct p; [contradiction | discriminate].
  - simpl in H |- *. apply orb_true_iff in H as [H|H].
    + destruct p as [|x p]; [contradiction|]. simpl in H |- *.
      apply andb_prop in H as [Hx Hq].
      rewrite Hx, (stepwise_prefix p t); [reflexivity| |exact Hq].
      intros Hin. apply Hr. right. exact Hin.
    + rewrite (IH (length t)); [apply orb_true_r | simpl in Hn; lia | reflexivity | exact H].
  - simpl in H. apply orb_true_iff in H as [H|H].
    + destruct p as [|x p]; [contradiction|]. simpl in H.
      apply andb_prop in H as [Hx _]. apply N.eqb_eq in Hx. subst x.
      exfalso. apply Hr. left. reflexivity.
    + apply occurs_app_l. apply (IH (length t)); [|reflexivity|exact H].
      rewrite Hn, length_app. destruct u; [contradiction | simpl; lia].
Qed.

End Stepwise.

(** ** trim *)

Lemma trimStart_suffix (s : jsstr) :
  exists w, s = w ++ trimStart s /\ forallb isWS w = true.
Proof.
  induction s as [|c s [w [Hw Hws]]]; [exists []; split; reflexivity|].
  simpl. destruct (isWS c) eqn:E.
  - exists (c :: w). simpl. rewrite E, Hws. rewrite <- Hw. split; reflexivity.
  - exists []. split; reflexivity.
Qed.

Lemma trimStart_head (s : jsstr) :
  trimStart s = [] \/ isWS (hd 0%N (trimStart s)) = false.
Proof.
  induction s as [|c s IH]; [left; reflexivity|].
  simpl. destruct (isWS c) eqn:E; [exact IH | right; exact E].
Qed.

Lemma trimStart_nows (s : jsstr) :
  s = [] \/ isWS (hd 0%N s) = false -> trimStart s = s.
Proof.
  destruct s as [|c s]; [reflexivity|]. intros [H|H]; [discriminate|].
  simpl in *. rewrite H. reflexivity.
Qed.

Lemma trimStart_idem (s : jsstr) : trimStart (trimStart s) = trimStart s.
Proof. apply trimStart_nows, trimStart_head. Qed.

Lemma trimEnd_prefix (s : jsstr) :
  exists w, s = trimEnd s ++ w /\ forallb isWS w = true.
Proof.
  destruct (trimStart_suffix (rev s)) as [w [Hw Hws]].
  exists (rev w). unfold trimEnd. split.
  - rewrite <- rev_app_distr, <- Hw, rev_involutive. reflexivity.
  - rewrite forallb_forall in *. intros x Hx. apply Hws, in_rev. exact Hx.
Qed.

Lemma trimEnd_nonempty_head (s : jsstr) :
  trimEnd s <> [] -> hd 0%N (trimEnd s) = hd 0%N s.
Proof.
  destruct (trimEnd_prefix s) as [w [Hw _]]. intros Hne.
  rewrite Hw at 2. destruct (trimEnd s); [contradiction | reflexivity].
Qed.

Lemma trimEnd_last (s : jsstr) :
  trimEnd s = [] \/ isWS (last (trimEnd s) 0%N) = false.
Proof.
  unfold trimEnd. destruct (trimStart_head (rev s)) as [H|H].
  - left. rewrite H. reflexivity.
  - right. destruct (trimStart (rev s)) as [|c l]; [reflexivity|].
    simpl. rewrite last_last. exact H.
Qed.

Lemma trim_infix (s : jsstr) : exists a b, s = a ++ trim s ++ b.
Proof.
  destruct (trimStart_suffix s) as [a [Ha _]].
  destruct (trimEnd_prefix (trimStart s)) as [b [Hb _]].
  exists a, b. unfold trim. rewrite <- Hb. exact Ha.
Qed.

Lemma trim_ends (s : jsstr) :
  trim s <> [] -> isWS (hd 0%N (trim s)) = false /\ isWS (last (trim s) 0%N) = false.
Proof.
  intros Hne. unfold trim in *. split.
  - rewrite (trimEnd_nonempty_head _ Hne).
    destruct (trimStart_head s) as [H|H]; [|exact H].
    exfalso. apply Hne. rewrite H. reflexivity.
  - destruct (trimEnd_last (trimStart s)) as [H|H]; [contradiction | exact H].
Qed.

Lemma trim_idem (s : jsstr) : trim (trim s) = trim s.
Proof.
  unfold trim at 1 2.
  assert (Hs : trimStart (trim s) = trim s).
  { apply trimStart_nows. destruct (trim s) eqn:E; [left; reflexivity|right].
    rewrite <- E. apply trim_ends. rewrite E. discriminate. }
  unfold trim in Hs. rewrite Hs. unfold trimEnd.
  rewrite rev_involutive, trimStart_idem. reflexivity.
Qed.

Lemma trim_occurs (p s : jsstr) : occurs p (trim s) = true -> occurs p s = true.
Proof.
  intros H. destruct (trim_infix s) as [a [b E]]. rewrite E.
  apply occurs_app_l, occurs_app_r, H.
Qed.

End TextFacts.

(** * The global replacements of normalizeDescText *)

Module ReplaceFacts.
Import TextFacts.

Lemma replace4_cons (e1 e2 e3 e4 rr a : N) (u : jsstr) :
  replace4 e1 e2 e3 e4 rr (a :: u) =
  if prefixb [e1; e2; e3; e4] (a :: u)
  then rr :: replace4 e1 e2 e3 e4 rr (skipn 3 u)
  else a :: replace4 e1 e2 e3 e4 rr u.
Proof.
  destruct u as [|b [|c [|d t]]]; simpl;
    rewrite ?(N.eqb_sym e1 a), ?(N.eqb_sym e2 b), ?(N.eqb_sym e3 c),
      ?(N.eqb_sym e4 d);
    repeat match goal with |- context [(?x =? ?y)%N] => destruct (x =? y)%N end;
    reflexivity.
Qed.

Lemma replace4_step (e1 e2 e3 e4 rr : N) (s : jsstr) :
  (s = [] /\ replace4 e1 e2 e3 e4 rr s = [])
  \/ (exists c t, s = c :: t
      /\ replace4 e1 e2 e3 e4 rr s = c :: replace4 e1 e2 e3 e4 rr t)
  \/ (exists u t, u <> [] /\ s = u ++ t
      /\ replace4 e1 e2 e3 e4 rr s = rr :: replace4 e1 e2 e3 e4 rr t).
Proof.
  destruct s as [|a u]; [left; split; reflexivity|right].
  rewrite replace4_cons. destruct (prefixb _ (a :: u)) eqn:E.
  - right. apply prefixb_app in E as [t Et].
    exists [e1; e2; e3; e4], t. split; [discriminate|]. split; [exact Et|].
    injection Et as -> ->. reflexivity.
  - left. exists a, u. split; reflexivity.
Qed.

(** After the pass no occurrence of the pattern is left, when the
    replacement unit is not one of the pattern's units. *)
Lemma replace4_no_pattern (e1 e2 e3 e4 rr : N) (s : jsstr) :
  rr <> e1 -> ~ In rr [e2; e3; e4] ->
  occurs [e1; e2; e3; e4] (replace4 e1 e2 e3 e4 rr s) = false.
Proof.
  intros H1 H234. remember (length s) as n eqn:Hn. revert s Hn.
  induction n as [n IH] using (well_founded_induction lt_wf).
  intros [|a u] Hn; [reflexivity|].
  rewrite replace4_cons. destruct (prefixb _ (a :: u)) eqn:E.
  - apply prefixb_app in E as [t Et]. injection Et as -> ->. simpl skipn.
    simpl. rewrite (proj2 (N.eqb_neq e1 rr)) by congruence. simpl.
    apply (IH (length t)); [simpl in Hn; lia | reflexivity].
  - rewrite occurs_cons. apply orb_false_iff. split.
    + rewrite prefixb_cons.
      destruct ((e1 =? a)%N && prefixb [e2; e3; e4] (replace4 e1 e2 e3 e4 rr u))
        eqn:E2; [|reflexivity].
      apply andb_prop in E2 as [Ha Hp].
      apply (stepwise_prefix _ rr (replace4_step e1 e2 e3 e4 rr)) in Hp;
        [|exact H234].
      rewrite prefixb_cons, Ha, Hp in E. discriminate.
    + apply (IH (length u)); [simpl in Hn; lia | reflexivity].
Qed.

Lemma replace4_id (e1 e2 e3 e4 rr : N) (s : jsstr) :
  occurs [e1; e2; e3; e4] s = false -> replace4 e1 e2 e3 e4 rr s = s.
Proof.
  induction s as [|a u IH]; intros H; [reflexivity|].
  apply occurs_cons_false in H as [Hp Hu].
  rewrite replace4_cons, Hp, (IH Hu). reflexivity.
Qed.

Lemma replace_crlf_cons (a : N) (u : jsstr) :
  replace_crlf (a :: u) =
  if prefixb [13; 10]%N (a :: u) then 10%N :: replace_crlf (skipn 1 u)
  else a :: replace_crlf u.
Proof.
  destruct u as [|b t]; cbn -[N.eqb];
    rewrite ?(N.eqb_sym 13 a), ?(N.eqb_sym 10 b);
    repeat match goal with |- context [(?x =? ?y)%N] => destruct (x =? y)%N end;
    reflexivity.
Qed.

Lemma replace_crlf_step (s : jsstr) :
  (s = [] /\ replace_crlf s = [])
  \/ (exists c t, s = c :: t /\ replace_crlf s = c :: replace_crlf t)
  \/ (exists u t, u <> [] /\ s = u ++ t /\ replace_crlf s = 10%N :: replace_crlf t).
Proof.
  destruct s as [|a u]; [left; split; reflexivity|right].
  rewrite replace_crlf_cons. destruct (prefixb _ (a :: u)) eqn:E.
  - right. apply prefixb_app in E as [t Et].
    exists [13; 10]%N, t. split; [discriminate|]. split; [exact Et|].
    injection Et as -> ->. reflexivity.
  - left. exists a, u. split; reflexivity.
Qed.

Lemma replace_crlf_id (s : jsstr) : occurs [13%N] s = false -> replace_crlf s = s.
Proof.
  induction s as [|a u IH]; intros H; [reflexivity|].
  apply occurs_cons_false in H as [Hp Hu].
  rewrite replace_crlf_cons, (IH Hu).
  simpl in Hp |- *. rewrite andb_true_r in Hp. rewrite Hp. reflexivity.
Qed.

Lemma replace_cr_step (s : jsstr) :
  (s = [] /\ replace_cr s = [])
  \/ (exists c t, s = c :: t /\ replace_cr s = c :: replace_cr t)
  \/ (exists u t, u <> [] /\ s = u ++ t /\ replace_cr s = 10%N :: replace_cr t).
Proof.
  destruct s as [|a u]; [left; split; reflexivity|right].
  unfold replace_cr at 1. simpl. destruct (a =? 13)%N.
  - right. exists [a], u. split; [discriminate | split; reflexivity].
  - left. exists a, u. split; reflexivity.
Qed.

Lemma replace_cr_no_cr (s : jsstr) : occurs [13%N] (replace_cr s) = false.
Proof.
  induction s as [|a u IH]; [reflexivity|].
  unfold replace_cr in *. cbn -[N.eqb occurs]. rewrite occurs_cons, IH, orb_false_r.
  destruct (a =? 13)%N eqn:E; [reflexivity|].
  rewrite prefixb_cons, N.eqb_sym, E. reflexivity.
Qed.

Lemma replace_cr_id (s : jsstr) : occurs [13%N] s = false -> replace_cr s = s.
Proof.
  induction s as [|a u IH]; intros H; [reflexivity|].
  apply occurs_cons_false in H as [Hp Hu].
  unfold replace_cr in *. cbn -[N.eqb]. rewrite (IH Hu).
  rewrite prefixb_cons, andb_true_r, N.eqb_sym in Hp. rewrite Hp. reflexivity.
Qed.

End ReplaceFacts.

(** * The line-break scan of normalizeDescText *)

Module BrFacts.
Import TextFacts.

Lemma after_gt_some (s y : jsstr) :
  after_gt s = Some y -> exists w, s = w ++ 62%N :: y /\ ~ In 62%N w.
Proof.
  revert y; induction s as [|c s IH]; intros y H; [discriminate|].
  simpl in H. destruct (c =? 62)%N eqn:E.
  - injection H as <-. apply N.eqb_eq in E. subst c.
    exists []. split; [reflexivity | intros []].
  - destruct (IH y H) as [w [-> Hw]]. exists (c :: w). split; [reflexivity|].
    intros [Hc|Hc]; [subst c; rewrite N.eqb_refl in E; discriminate | exact (Hw Hc)].
Qed.

Lemma after_gt_app (w y : jsstr) :
  ~ In 62%N w -> after_gt (w ++ 62%N :: y) = Some y.
Proof.
  induction w as [|c w IH]; intros Hw; [reflexivity|].
  simpl. destruct (c =? 62)%N eqn:E.
  - apply N.eqb_eq in E. subst c. exfalso. apply Hw. left. reflexivity.
  - apply IH. intros H. apply Hw. right. exact H.
Qed.

Lemma after_gt_none (s : jsstr) : ~ In 62%N s -> after_gt s = None.
Proof.
  induction s as [|c s IH]; intros Hs; [reflexivity|].
  simpl. destruct (c =? 62)%N eqn:E.
  - apply N.eqb_eq in E. subst c. exfalso. apply Hs. left. reflexivity.
  - apply IH. intros H. apply Hs. right. exact H.
Qed.

(** A ['>'] found in a text stays the first one when text without ['>']
    is appended. *)
Lemma after_gt_app_nogt (s tail : jsstr) :
  ~ In 62%N tail ->
  after_gt (s ++ tail) =
  match after_gt s with Some y => Some (y ++ tail) | None => None end.
Proof.
  intros Ht. induction s as [|c s IH]; [apply after_gt_none, Ht|].
  simpl. destruct (c =? 62)%N; [reflexivity | exact IH].
Qed.

Lemma after_gt_length (s y : jsstr) : after_gt s = Some y -> (length y < length s)%nat.
Proof.
  intros H. apply after_gt_some in H as [w [-> _]].
  rewrite length_app. simpl. lia.
Qed.

Lemma not_in_skipn (x : N) (n : nat) (s : jsstr) : ~ In x s -> ~ In x (skipn n s).
Proof.
  intros H Hin. apply H. rewrite <- (firstn_skipn n s). apply in_or_app. right. exact Hin.
Qed.

Lemma lower_b_r (c : N) : lower c = 98%N \/ lower c = 114%N -> c <> 62%N /\ c <> 10%N.
Proof.
  unfold lower. destruct ((65 <=? c)%N && (c <=? 90)%N) eqn:E; intros H.
  - apply andb_prop in E as [E1 E2]. apply N.leb_le in E1. lia.
  - lia.
Qed.

Lemma is_br_open_inv (s : jsstr) :
  is_br_open s = true ->
  exists b r t, s = 60%N :: b :: r :: t /\ lower b = 98%N /\ lower r = 114%N.
Proof.
  destruct s as [|a [|b [|r t]]]; try discriminate. simpl.
  intros H. apply andb_prop in H as [H Hr]. apply andb_prop in H as [Ha Hb].
  apply N.eqb_eq in Ha, Hb, Hr. subst a. exists b, r, t. auto.
Qed.

Lemma is_br_open_intro (b r : N) (t : jsstr) :
  lower b = 98%N -> lower r = 114%N -> is_br_open (60%N :: b :: r :: t) = true.
Proof. intros Hb Hr. simpl. rewrite Hb, Hr. reflexivity. Qed.

Lemma br_loop_S (f : nat) (c : N) (t : jsstr) :
  br_loop (S f) (c :: t) =
  if is_br_open (c :: t) then
    match after_gt (skipn 3 (c :: t)) with
    | Some rest => 10%N :: br_loop f rest
    | None => c :: br_loop f t
    end
  else c :: br_loop f t.
Proof. reflexivity. Qed.

(** Any fuel at least the length of the text gives the same result. *)
Lemma br_loop_fuel (n m : nat) (s : jsstr) :
  (length s <= n)%nat -> (length s <= m)%nat -> br_loop n s = br_loop m s.
Proof.
  revert m s; induction n as [|n IH]; intros m s Hn Hm.
  - destruct s; [destruct m; reflexivity | simpl in Hn; lia].
  - destruct s as [|c t]; [destruct m; reflexivity|].
    destruct m as [|m]; [simpl in Hm; lia|].
    rewrite !br_loop_S. simpl in Hn, Hm.
    destruct (is_br_open (c :: t)); [destruct (after_gt (skipn 3 (c :: t))) eqn:Ea|].
    + apply after_gt_length in Ea. rewrite length_skipn in Ea. simpl in Ea.
      f_equal. apply IH; lia.
    + f_equal. apply IH; lia.
    + f_equal. apply IH; lia.
Qed.

Lemma br_pass_cons (c : N) (t : jsstr) :
  br_pass (c :: t) =
  if is_br_open (c :: t) then
    match after_gt (skipn 3 (c :: t)) with
    | Some rest => 10%N :: br_pass rest
    | None => c :: br_pass t
    end
  else c :: br_pass t.
Proof.
  unfold br_pass at 1. simpl length. rewrite br_loop_S.
  destruct (is_br_open (c :: t)); [destruct (after_gt (skipn 3 (c :: t))) eqn:Ea|];
    try reflexivity.
  apply after_gt_length in Ea. rewrite length_skipn in Ea. simpl in Ea.
  unfold br_pass. f_equal. apply br_loop_fuel; lia.
Qed.

Lemma br_pass_step (s : jsstr) :
  (s = [] /\ br_pass s = [])
  \/ (exists c t, s = c :: t /\ br_pass s = c :: br_pass t)
  \/ (exists u t, u <> [] /\ s = u ++ t /\ br_pass s = 10%N :: br_pass t).
Proof.
  destruct s as [|c t]; [left; split; reflexivity|right].
  rewrite br_pass_cons.
  destruct (is_br_open (c :: t)) eqn:Eo;
    [destruct (after_gt (skipn 3 (c :: t))) as [rest|] eqn:Ea|].
  - right. apply is_br_open_inv in Eo as [b [r [t3 [Es _]]]].
    rewrite Es in Ea. simpl in Ea. apply after_gt_some in Ea as [w [Ew _]].
    exists (60%N :: b :: r :: w ++ [62%N]), rest.
    split; [discriminate|]. split; [|reflexivity].
    rewrite Es, Ew. simpl. rewrite <- app_assoc. reflexivity.
  - left. exists c, t. split; reflexivity.
  - left. exists c, t. split; reflexivity.
Qed.

Lemma has_br_tag_cons (c : N) (t : jsstr) :
  has_br_tag (c :: t) =
  (is_br_open (c :: t)
   && match after_gt (skipn 3 (c :: t)) with Some _ => true | None => false end)
  || has_br_tag t.
Proof. reflexivity. Qed.

(** Text without a [<br ... >] run goes through the scan unchanged. *)
Lemma br_pass_id (s : jsstr) : has_br_tag s = false -> br_pass s = s.
Proof.
  induction s as [|c t IH]; intros H; [reflexivity|].
  rewrite has_br_tag_cons in H. apply orb_false_iff in H as [H1 H2].
  rewrite br_pass_cons, (IH H2).
  destruct (is_br_open (c :: t)); [|reflexivity].
  destruct (after_gt (skipn 3 (c :: t))); [discriminate | reflexivity].
Qed.

Lemma no_gt_no_tag (s : jsstr) : ~ In 62%N s -> has_br_tag s = false.
Proof.
  induction s as [|c t IH]; intros H; [reflexivity|].
  rewrite has_br_tag_cons, IH, after_gt_none.
  - destruct (is_br_open (c :: t)); reflexivity.
  - apply not_in_skipn, H.
  - intros Hin. apply H. right. exact Hin.
Qed.

End BrFacts.

(** * normalizeDescText *)

Module NormalizeFacts.
Import TextFacts ReplaceFacts BrFacts.

Lemma normalize_some_cons (a : N) (u : jsstr) :
  normalizeDescText (Some (a :: u))
  = trim (replace_cr (replace_crlf (br_pass (replace_gt (replace_lt (a :: u)))))).
Proof. reflexivity. Qed.

Lemma stepwise_false (f : jsstr -> jsstr) (r : N) (p s : jsstr) :
  (forall s,
    (s = [] /\ f s = [])
    \/ (exists c t, s = c :: t /\ f s = c :: f t)
    \/ (exists u t, u <> [] /\ s = u ++ t /\ f s = r :: f t)) ->
  p <> [] -> ~ In r p -> occurs p s = false -> occurs p (f s) = false.
Proof.
  intros Hstep Hp Hr Hs. destruct (occurs p (f s)) eqn:E; [|reflexivity].
  apply (stepwise_occurs f r Hstep) in E; congruence.
Qed.

(** The scan agrees with the spec's replacement relation, in both
    directions. *)
Lemma br_pass_sound (s : jsstr) : br_replaced s (br_pass s).
Proof.
  remember (length s) as n eqn:Hn. revert s Hn.
  induction n as [n IH] using (well_founded_induction lt_wf).
  intros [|c t] Hn; [constructor|].
  rewrite br_pass_cons.
  destruct (is_br_open (c :: t)) eqn:Eo;
    [destruct (after_gt (skipn 3 (c :: t))) as [rest|] eqn:Ea|].
  - apply is_br_open_inv in Eo as [b [r [t3 [Es [Hb Hr]]]]].
    rewrite Es in Ea, Hn. simpl in Ea.
    apply after_gt_some in Ea as [w [Ew Hw]].
    rewrite Es, Ew. apply br_tag; try assumption.
    apply (IH (length rest)); [|reflexivity].
    rewrite Hn, Ew. simpl. rewrite length_app. simpl. lia.
  - apply br_keep; [|apply (IH (length t)); [simpl in Hn; lia | reflexivity]].
    intros [b [r [name [rest [Es [Hb [Hr Hname]]]]]]].
    rewrite Es in Ea. simpl in Ea. rewrite after_gt_app in Ea by exact Hname.
    discriminate.
  - apply br_keep; [|apply (IH (length t)); [simpl in Hn; lia | reflexivity]].
    intros [b [r [name [rest [Es [Hb [Hr Hname]]]]]]].
    rewrite Es, is_br_open_intro in Eo by assumption. discriminate.
Qed.

Lemma br_replaced_complete (s o : jsstr) : br_replaced s o -> o = br_pass s.
Proof.
  induction 1 as [| b r name rest o Hb Hr Hname _ IH | c t o Hno _ IH].
  - reflexivity.
  - rewrite br_pass_cons, is_br_open_intro by assumption.
    simpl skipn. rewrite after_gt_app by exact Hname. rewrite IH. reflexivity.
  - rewrite br_pass_cons, <- IH.
    destruct (is_br_open (c :: t)) eqn:Eo; [|reflexivity].
    destruct (after_gt (skipn 3 (c :: t))) as [rest|] eqn:Ea; [|reflexivity].
    exfalso. apply Hno.
    apply is_br_open_inv in Eo as [b [r [t3 [Es [Hb Hr]]]]].
    rewrite Es in Ea. simpl in Ea. apply after_gt_some in Ea as [w [Ew Hw]].
    exists b, r, w, rest. rewrite Es, Ew. auto.
Qed.

Lemma open_closed_app (s tail y : jsstr) :
  ~ In 62%N tail -> is_br_open (s ++ tail) = true ->
  after_gt (skipn 3 (s ++ tail)) = Some y ->
  exists y', is_br_open s = true /\ after_gt (skipn 3 s) = Some y' /\ y = y' ++ tail.
Proof.
  intros Ht Ho Ha. destruct s as [|a [|b [|d s3]]].
  - change (skipn 3 ([] ++ tail)) with (skipn 3 tail) in Ha.
    rewrite after_gt_none in Ha by (apply not_in_skipn; exact Ht). discriminate.
  - change (skipn 3 ([a] ++ tail)) with (skipn 2 tail) in Ha.
    rewrite after_gt_none in Ha by (apply not_in_skipn; exact Ht). discriminate.
  - change (skipn 3 ([a; b] ++ tail)) with (skipn 1 tail) in Ha.
    rewrite after_gt_none in Ha by (apply not_in_skipn; exact Ht). discriminate.
  - change (skipn 3 ((a :: b :: d :: s3) ++ tail)) with (s3 ++ tail) in Ha.
    rewrite after_gt_app_nogt in Ha by exact Ht.
    destruct (after_gt s3) as [y'|] eqn:E; [|discriminate].
    injection Ha as <-. exists y'. split; [exact Ho | split; [exact E | reflexivity]].
Qed.

Lemma open_closed_app_r (s tail y : jsstr) :
  ~ In 62%N tail -> is_br_open s = true -> after_gt (skipn 3 s) = Some y ->
  is_br_open (s ++ tail) = true /\ after_gt (skipn 3 (s ++ tail)) = Some (y ++ tail).
Proof.
  intros Ht Ho Ha. apply is_br_open_inv in Ho as [b [r [t [-> [Hb Hr]]]]].
  split; [exact (is_br_open_intro b r (t ++ tail) Hb Hr)|].
  change (skipn 3 ((60%N :: b :: r :: t) ++ tail)) with (t ++ tail).
  change (skipn 3 (60%N :: b :: r :: t)) with t in Ha.
  rewrite after_gt_app_nogt by exact Ht. rewrite Ha. reflexivity.
Qed.

(** Appending text without ['>'] does not change how the scan treats
    what precedes it. *)
Lemma br_pass_app_nogt (s tail : jsstr) :
  ~ In 62%N tail -> br_pass (s ++ tail) = br_pass s ++ tail.
Proof.
  intros Ht. remember (length s) as n eqn:Hn. revert s Hn.
  induction n as [n IH] using (well_founded_induction lt_wf).
  intros [|c t] Hn; [apply br_pass_id, no_gt_no_tag, Ht|].
  assert (IHt : br_pass (t ++ tail) = br_pass t ++ tail)
    by (apply (IH (length t)); [simpl in Hn; lia | reflexivity]).
  change ((c :: t) ++ tail) with (c :: (t ++ tail)).
  rewrite (br_pass_cons c (t ++ tail)), (br_pass_cons c t).
  destruct (is_br_open (c :: t)) eqn:Eo;
    [destruct (after_gt (skipn 3 (c :: t))) as [rest|] eqn:Ea|].
  - destruct (open_closed_app_r (c :: t) tail rest Ht Eo Ea) as [Eo' Ea'].
    change ((c :: t) ++ tail) with (c :: (t ++ tail)) in Eo', Ea'.
    rewrite Eo', Ea'. simpl.
    apply after_gt_length in Ea. rewrite length_skipn in Ea.
    rewrite (IH (length rest)); [reflexivity | simpl in Hn, Ea; lia | reflexivity].
  - destruct (is_br_open (c :: t ++ tail)) eqn:Eo';
      [destruct (after_gt (skipn 3 (c :: t ++ tail))) as [y|] eqn:Ea'|];
      try (rewrite IHt; reflexivity).
    destruct (open_closed_app (c :: t) tail y Ht Eo' Ea') as [y' [_ [E _]]].
    congruence.
  - destruct (is_br_open (c :: t ++ tail)) eqn:Eo';
      [destruct (after_gt (skipn 3 (c :: t ++ tail))) as [y|] eqn:Ea'|];
      try (rewrite IHt; reflexivity).
    destruct (open_closed_app (c :: t) tail y Ht Eo' Ea') as [y' [E _]].
    congruence.
Qed.

Lemma normalize_occurs_back (p s : jsstr) :
  p <> [] -> ~ In 10%N p ->
  occurs p (trim (replace_cr (replace_crlf (br_pass s)))) = true -> occurs p s = true.
Proof.
  intros Hp Hr H.
  apply trim_occurs in H.
  apply (stepwise_occurs _ 10 replace_cr_step) in H; [|exact Hp|exact Hr].
  apply (stepwise_occurs _ 10 replace_crlf_step) in H; [|exact Hp|exact Hr].
  apply (stepwise_occurs _ 10 br_pass_step) in H; [exact H|exact Hp|exact Hr].
Qed.

Lemma decode_no_entities (x : jsstr) :
  occurs ent_lt (replace_gt (replace_lt x)) = false
  /\ occurs ent_gt (replace_gt (replace_lt x)) = false.
Proof.
  split.
  - apply (stepwise_false _ 62 _ _ (replace4_step 38 103 116 59 62));
      [discriminate | simpl; intuition lia|].
    apply replace4_no_pattern; [discriminate | simpl; intuition lia].
  - apply replace4_no_pattern; [discriminate | simpl; intuition lia].
Qed.

(** Text that is already clean comes back unchanged. *)
Lemma normalize_clean (y : jsstr) :
  occurs ent_lt y = false -> occurs ent_gt y = false -> occurs [13%N] y = false ->
  has_br_tag y = false -> trim y = y -> normalizeDescText (Some y) = y.
Proof.
  intros H1 H2 H3 H4 H5. destruct y as [|a u]; [reflexivity|].
  rewrite <- H5 at 2. rewrite normalize_some_cons.
  unfold replace_lt, replace_gt.
  rewrite (replace4_id _ _ _ _ _ _ H1), (replace4_id _ _ _ _ _ _ H2).
  rewrite (br_pass_id _ H4), (replace_crlf_id _ H3), (replace_cr_id _ H3).
  reflexivity.
Qed.

(** C5: [normalizeDescText] decodes [&lt;] and [&gt;], then replaces every
    [<br ... >] run by one newline as the spec's relation [br_replaced]
    describes, then turns [\r\n] and [\r] into [\n] and trims; on
    ["Line 1<br>Line 2"] it gives ["Line 1\nLine 2"]; undefined and empty
    input give the empty string. *)
Theorem normalizeDescText_pipeline :
  (forall raw m : jsstr,
     br_replaced (replace_gt (replace_lt raw)) m ->
     normalizeDescText (Some raw) = trim (replace_cr (replace_crlf m)))
  /\ (forall raw : jsstr, exists m, br_replaced (replace_gt (replace_lt raw)) m)
  /\ normalizeDescText (Some (str "Line 1<br>Line 2"))
     = str "Line 1" ++ [10%N] ++ str "Line 2"
  /\ normalizeDescText None = []
  /\ normalizeDescText (Some []) = [].
Proof.
  split; [|split; [|split; [reflexivity | split; reflexivity]]].
  - intros raw m Hm. apply br_replaced_complete in Hm. subst m.
    destruct raw as [|a u]; [reflexivity|]. apply normalize_some_cons.
  - intros raw. exists (br_pass (replace_gt (replace_lt raw))). apply br_pass_sound.
Qed.

Lemma normalizeDescText_pipeline_witness :
  let raw := str "Line 1<br>Line 2" in
  br_replaced (replace_gt (replace_lt raw)) (br_pass (replace_gt (replace_lt raw)))
  /\ normalizeDescText (Some raw)
     = trim (replace_cr (replace_crlf (br_pass (replace_gt (replace_lt raw))))).
Proof.
  intros raw. split; [apply br_pass_sound|].
  apply (proj1 normalizeDescText_pipeline). apply br_pass_sound.
Defined.

(** C6 (as amended): when the entity-decoded text holds a [<br] opener with
    no ['>'] after it, that opener and everything after it reach the
    output literally, up to the newline collapsing and the trim. *)
Theorem normalizeDescText_unclosed_br (raw pre rest : jsstr) (b r : N) :
  replace_gt (replace_lt raw) = pre ++ 60%N :: b :: r :: rest ->
  lower b = 98%N -> lower r = 114%N -> ~ In 62%N rest ->
  normalizeDescText (Some raw)
  = trim (replace_cr (replace_crlf (br_pass pre ++ 60%N :: b :: r :: rest))).
Proof.
  intros Hd Hb Hr Hrest.
  destruct raw as [|a u].
  - destruct pre; discriminate.
  - rewrite normalize_some_cons, Hd, br_pass_app_nogt; [reflexivity|].
    destruct (lower_b_r b (or_introl Hb)) as [Hb62 _].
    destruct (lower_b_r r (or_intror Hr)) as [Hr62 _].
    intros [H|[H|[H|H]]]; [discriminate | congruence | congruence | exact (Hrest H)].
Qed.

Lemma normalizeDescText_unclosed_br_witness :
  replace_gt (replace_lt (str "x<br y")) = str "x" ++ 60%N :: 98%N :: 114%N :: str " y"
  /\ lower 98 = 98%N /\ lower 114 = 114%N /\ ~ In 62%N (str " y")
  /\ normalizeDescText (Some (str "x<br y"))
     = trim (replace_cr (replace_crlf (br_pass (str "x") ++ 60%N :: 98%N :: 114%N :: str " y"))).
Proof.
  assert (Hn : ~ In 62%N (str " y")) by (simpl; intuition discriminate).
  split; [reflexivity | split; [reflexivity | split; [reflexivity | split; [exact Hn|]]]].
  apply normalizeDescText_unclosed_br; [reflexivity | reflexivity | reflexivity | exact Hn].
Defined.

(** C6 as stated fails: the input ["a<br&gt;b"] holds [<br] with no ['>']
    after it, yet the decoded ['>'] closes the tag and no ['<'] reaches
    the output. *)
Lemma normalizeDescText_unclosed_br_entity :
  str "a<br&gt;b" = str "a" ++ str "<br" ++ str "&gt;b"
  /\ ~ In 62%N (str "&gt;b")
  /\ normalizeDescText (Some (str "a<br&gt;b")) = str "a" ++ [10%N] ++ str "b"
  /\ ~ In 60%N (normalizeDescText (Some (str "a<br&gt;b"))).
Proof.
  split; [reflexivity|]. split; [simpl; intuition discriminate|].
  split; [reflexivity|]. vm_compute. intuition discriminate.
Qed.

(** C7: [normalizeDescText] is idempotent on outputs that hold no
    [<br ... >] run. *)
Theorem normalizeDescText_idempotent (x : option jsstr) :
  has_br_tag (normalizeDescText x) = false ->
  normalizeDescText (Some (normalizeDescText x)) = normalizeDescText x.
Proof.
  intros Htag. apply normalize_clean; try exact Htag.
  - destruct x as [[|a u]|]; [reflexivity| |reflexivity].
    rewrite normalize_some_cons. destruct (occurs _ _) eqn:E; [|reflexivity].
    apply normalize_occurs_back in E; [|discriminate | simpl; intuition lia].
    rewrite (proj1 (decode_no_entities _)) in E. discriminate.
  - destruct x as [[|a u]|]; [reflexivity| |reflexivity].
    rewrite normalize_some_cons. destruct (occurs _ _) eqn:E; [|reflexivity].
    apply normalize_occurs_back in E; [|discriminate | simpl; intuition lia].
    rewrite (proj2 (decode_no_entities _)) in E. discriminate.
  - destruct x as [[|a u]|]; [reflexivity| |reflexivity].
    rewrite normalize_some_cons. destruct (occurs _ _) eqn:E; [|reflexivity].
    apply trim_occurs in E. rewrite replace_cr_no_cr in E. discriminate.
  - destruct x as [[|a u]|]; [reflexivity| |reflexivity].
    rewrite normalize_some_cons. apply trim_idem.
Qed.

Lemma normalizeDescText_idempotent_witness :
  has_br_tag (normalizeDescText (Some (str "Line 1<br>Line 2"))) = false
  /\ normalizeDescText (Some (normalizeDescText (Some (str "Line 1<br>Line 2"))))
     = normalizeDescText (Some (str "Line 1<br>Line 2")).
Proof.
  assert (H : has_br_tag (normalizeDescText (Some (str "Line 1<br>Line 2"))) = false)
    by (vm_compute; reflexivity).
  split; [exact H | exact (normalizeDescText_idempotent _ H)].
Defined.

(** C10: any run that starts with [<br] in any case and ends at the next
    ['>'] becomes a newline, also a tag that merely begins with "br". *)
Theorem normalizeDescText_br_prefix_tags :
  normalizeDescText (Some (str "a<branch>b")) = str "a" ++ [10%N] ++ str "b"
  /\ (forall (b r : N) (name post : jsstr),
      lower b = 98%N -> lower r = 114%N -> ~ In 62%N name ->
      br_pass (60%N :: b :: r :: name ++ 62%N :: post) = 10%N :: br_pass post).
Proof.
  split; [reflexivity|].
  intros b r name post Hb Hr Hname.
  rewrite br_pass_cons, is_br_open_intro by assumption.
  simpl skipn. rewrite after_gt_app by exact Hname. reflexivity.
Qed.

Lemma normalizeDescText_br_prefix_tags_witness :
  lower 66 = 98%N /\ lower 114 = 114%N /\ ~ In 62%N (str "anch")
  /\ br_pass (60%N :: 66%N :: 114%N :: str "anch" ++ 62%N :: str "b")
     = 10%N :: br_pass (str "b").
Proof.
  assert (Hn : ~ In 62%N (str "anch")) by (simpl; intuition discriminate).
  split; [reflexivity | split; [reflexivity | split; [exact Hn|]]].
  apply (proj2 normalizeDescText_br_prefix_tags); [reflexivity | reflexivity | exact Hn].
Defined.

End NormalizeFacts.

(** * descToLines *)

Module LinesFacts.
Import TextFacts.

Lemma split_on_nonempty (sep : N) (s : jsstr) : split_on sep s <> [].
Proof.
  destruct s as [|c t]; simpl; [discriminate|].
  destruct (c =? sep)%N; [discriminate|]. destruct (split_on sep t); discriminate.
Qed.

Lemma join_cons_head (sep c : N) (w : jsstr) (ws : list jsstr) :
  join sep ((c :: w) :: ws) = c :: join sep (w :: ws).
Proof. destruct ws; reflexivity. Qed.

Lemma split_on_join (sep : N) (s : jsstr) : join sep (split_on sep s) = s.
Proof.
  induction s as [|c t IH]; [reflexivity|].
  change (split_on sep (c :: t)) with
    (if (c =? sep)%N then [] :: split_on sep t
     else match split_on sep t with
          | w :: ws => (c :: w) :: ws
          | [] => [[c]]
          end).
  destruct (c =? sep)%N eqn:E.
  - apply N.eqb_eq in E. subst c.
    destruct (split_on sep t) as [|w ws] eqn:Es;
      [exfalso; exact (split_on_nonempty sep t Es)|].
    change (join sep ([] :: w :: ws)) with ([] ++ sep :: join sep (w :: ws)).
    rewrite IH. reflexivity.
  - destruct (split_on sep t) as [|w ws] eqn:Es;
      [exfalso; exact (split_on_nonempty sep t Es)|].
    rewrite join_cons_head, IH. reflexivity.
Qed.

Lemma split_on_no_sep (sep : N) (s : jsstr) :
  Forall (fun w => ~ In sep w) (split_on sep s).
Proof.
  induction s as [|c t IH]; simpl; [repeat constructor; intros []|].
  destruct (c =? sep)%N eqn:E; [constructor; [intros []|exact IH]|].
  apply N.eqb_neq in E.
  destruct (split_on sep t) as [|w ws].
  - constructor; [|constructor]. intros [H|[]]. congruence.
  - inversion IH as [|w' ws' Hw Hws]; subst.
    constructor; [|exact Hws]. intros [H|H]; [congruence | exact (Hw H)].
Qed.

Lemma push_line_trim (acc : list jsstr) (seg : jsstr) :
  push_line acc (trim seg) = acc ++ segment_lines seg.
Proof.
  unfold push_line, segment_lines.
  destruct (trim seg) as [|x l]; [rewrite app_nil_r; reflexivity|].
  destruct (trim (strip_bullet (x :: l))); [rewrite app_nil_r|]; reflexivity.
Qed.

Lemma fold_push_line (segs : list jsstr) (acc : list jsstr) :
  fold_left push_line (map trim segs) acc = acc ++ concat (map segment_lines segs).
Proof.
  revert acc; induction segs as [|seg segs IH]; intros acc; simpl.
  - rewrite app_nil_r. reflexivity.
  - rewrite IH, push_line_trim, app_assoc. reflexivity.
Qed.

Lemma descToLines_concat (desc : option jsstr) :
  descToLines desc
  = concat (map segment_lines (split_on 10 (match desc with Some d => d | None => [] end))).
Proof. unfold descToLines. apply fold_push_line. Qed.

Lemma strip_bullet_spec (line : jsstr) : strip_marker_spec line (strip_bullet line).
Proof.
  destruct line as [|m t]; [right; split; [left|]; reflexivity|].
  simpl. destruct (is_bullet m) eqn:E.
  - left. destruct (trimStart_suffix t) as [w [Hw Hws]].
    exists m, w. split; [exact E|]. split; [exact Hws|].
    split; [rewrite <- Hw; reflexivity | apply trimStart_idem].
  - right. split; [right; exact E | reflexivity].
Qed.

(** C8: [descToLines] splits on ['\\n'] (the segments hold no ['\\n'] and
    join back to the input), keeps in order what each segment gives after
    trimming, dropping the empty ones, stripping one leading marker with
    its whitespace and trimming again; the empty and the undefined input
    give no line. *)
Theorem descToLines_spec :
  (forall d : jsstr,
      join 10 (split_on 10 d) = d
      /\ Forall (fun w => ~ In 10%N w) (split_on 10 d)
      /\ descToLines (Some d) = concat (map segment_lines (split_on 10 d)))
  /\ (forall line : jsstr, strip_marker_spec line (strip_bullet line))
  /\ descToLines (Some (str "- A" ++ [10%N] ++ str "- B")) = [str "A"; str "B"]
  /\ descToLines (Some []) = []
  /\ descToLines None = [].
Proof.
  split; [|split; [exact strip_bullet_spec | split; [reflexivity | split; reflexivity]]].
  intros d. split; [apply split_on_join|]. split; [apply split_on_no_sep|].
  apply (descToLines_concat (Some d)).
Qed.

(** C4 as stated fails: only one marker is stripped, so ["- - A"] gives
    the entry ["- A"], which starts with a marker. *)
Lemma descToLines_double_marker :
  descToLines (Some (str "- - A")) = [str "- A"]
  /\ exists e, In e (descToLines (Some (str "- - A"))) /\ is_bullet (hd 0%N e) = true.
Proof.
  split; [reflexivity|]. exists (str "- A"). split; [left; reflexivity | reflexivity].
Qed.

(** C4 (as amended): every entry is non-empty with no whitespace at either
    end; it starts with a marker only when its trimmed segment started with
    a marker, whitespace and the entry itself. *)
Theorem descToLines_entries (desc : option jsstr) (e : jsstr) :
  In e (descToLines desc) ->
  e <> [] /\ isWS (hd 0%N e) = false /\ isWS (last e 0%N) = false
  /\ (is_bullet (hd 0%N e) = true ->
      exists seg m w w',
        In seg (split_on 10 (match desc with Some d => d | None => [] end))
        /\ trim seg = m :: w ++ e ++ w'
        /\ is_bullet m = true /\ forallb isWS w = true /\ forallb isWS w' = true).
Proof.
  rewrite descToLines_concat. intros Hin.
  apply in_concat in Hin as [ls [Hls He]]. apply in_map_iff in Hls as [seg [<- Hseg]].
  unfold segment_lines in He.
  destruct (trim seg) as [|x l] eqn:Et; [destruct He|].
  destruct (trim (strip_bullet (x :: l))) as [|y ys] eqn:Ec; [destruct He|].
  destruct He as [<-|[]].
  assert (Hends := trim_ends (strip_bullet (x :: l))).
  rewrite Ec in Hends. destruct (Hends ltac:(discriminate)) as [Hh Hl].
  split; [discriminate|]. split; [exact Hh|]. split; [exact Hl|].
  intros Hb. simpl strip_bullet in Ec. destruct (is_bullet x) eqn:Ex.
  - destruct (trimStart_suffix l) as [w [Hw Hws]].
    destruct (trimEnd_prefix (trimStart l)) as [w' [Hw' Hws']].
    unfold trim in Ec. rewrite trimStart_idem in Ec.
    exists seg, x, w, w'. split; [exact Hseg|]. split; [|auto].
    rewrite Et, <- Ec, <- Hw', <- Hw. reflexivity.
  - exfalso. rewrite <- Et, trim_idem, Et in Ec. injection Ec as -> ->.
    simpl in Hb. congruence.
Qed.

Lemma descToLines_entries_witness :
  In (str "- A") (descToLines (Some (str "- - A")))
  /\ str "- A" <> [] /\ isWS (hd 0%N (str "- A")) = false.
Proof.
  assert (H : In (str "- A") (descToLines (Some (str "- - A")))) by (left; reflexivity).
  split; [exact H|].
  destruct (descToLines_entries _ _ H) as [Hne [Hh _]]. split; assumption.
Defined.

End LinesFacts.

Module SanitizeFacts.

Ltac not_in :=
  let H := fresh in
  intro H; repeat (destruct H as [H|H]; [discriminate H|]); destruct H.

Lemma replace_char_flat_map (c : N) (r s : jsstr) :
  replace_char c r s = flat_map (fun x => if (x =? c)%N then r else [x]) s.
Proof.
  induction s as [|x t IH]; [reflexivity|]. simpl. rewrite IH.
  destruct (x =? c)%N; reflexivity.
Qed.

Lemma replace_char_app (c : N) (r a b : jsstr) :
  replace_char c r (a ++ b) = replace_char c r a ++ replace_char c r b.
Proof. rewrite !replace_char_flat_map. apply flat_map_app. Qed.

Lemma sanitize_chain_app (a b : jsstr) : sanitize_chain (a ++ b) = sanitize_chain a ++ sanitize_chain b.
Proof. unfold sanitize_chain. rewrite !replace_char_app. reflexivity. Qed.

Lemma replace_char_single (c x : N) (r : jsstr) :
  replace_char c r [x] = if (x =? c)%N then r else [x].
Proof. simpl. destruct (x =? c)%N; [apply app_nil_r | reflexivity]. Qed.

Lemma sanitize_chain_single (x : N) : sanitize_chain [x] = escape_char x.
Proof.
  unfold sanitize_chain, escape_char.
  rewrite (replace_char_single 38).
  destruct (x =? 38)%N eqn:E1; [reflexivity|].
  rewrite (replace_char_single 60).
  destruct (x =? 60)%N eqn:E2; [reflexivity|].
  rewrite (replace_char_single 62).
  destruct (x =? 62)%N eqn:E3; [reflexivity|].
  rewrite (replace_char_single 34).
  destruct (x =? 34)%N eqn:E4; [reflexivity|].
  rewrite (replace_char_single 39).
  destruct (x =? 39)%N eqn:E5; reflexivity.
Qed.

Lemma sanitize_chain_flat_map (s : jsstr) : sanitize_chain s = flat_map escape_char s.
Proof.
  induction s as [|x t IH]; [reflexivity|].
  change (x :: t) with ([x] ++ t). rewrite sanitize_chain_app, sanitize_chain_single, IH. reflexivity.
Qed.

Lemma escape_char_cases (c : N) :
  (escape_char c = [c] /\ c <> 38%N /\ c <> 60%N /\ c <> 62%N /\ c <> 34%N /\ c <> 39%N)
  \/ c = 38%N \/ c = 60%N \/ c = 62%N \/ c = 34%N \/ c = 39%N.
Proof.
  unfold escape_char.
  destruct (c =? 38)%N eqn:E1; [apply N.eqb_eq in E1; subst; tauto|].
  destruct (c =? 60)%N eqn:E2; [apply N.eqb_eq in E2; subst; tauto|].
  destruct (c =? 62)%N eqn:E3; [apply N.eqb_eq in E3; subst; tauto|].
  destruct (c =? 34)%N eqn:E4; [apply N.eqb_eq in E4; subst; tauto|].
  destruct (c =? 39)%N eqn:E5; [apply N.eqb_eq in E5; subst; tauto|].
  apply N.eqb_neq in E1, E2, E3, E4, E5. left. repeat split; assumption.
Qed.

Lemma escape_char_prefix (a b : N) (u v : jsstr) :
  escape_char a ++ u = escape_char b ++ v -> a = b /\ u = v.
Proof.
  intros H.
  assert (Hab : a = b).
  { destruct (escape_char_cases a) as [[Ea [A1 [A2 [A3 [A4 A5]]]]]|Ha];
    destruct (escape_char_cases b) as [[Eb [B1 [B2 [B3 [B4 B5]]]]]|Hb].
    - rewrite Ea, Eb in H. injection H as ->. reflexivity.
    - rewrite Ea in H.
      destruct Hb as [E|[E|[E|[E|E]]]]; subst; simpl in H; injection H as Hx _; congruence.
    - rewrite Eb in H.
      destruct Ha as [E|[E|[E|[E|E]]]]; subst; simpl in H; injection H as Hx _; congruence.
    - destruct Ha as [E|[E|[E|[E|E]]]]; subst; destruct Hb as [E|[E|[E|[E|E]]]]; subst;
        try reflexivity; discriminate H. }
  subst b. split; [reflexivity|]. exact (app_inv_head _ _ _ H).
Qed.

Lemma escape_char_nonempty (c : N) : escape_char c <> [].
Proof.
  destruct (escape_char_cases c) as [[E _]|H]; [rewrite E; discriminate|].
  destruct H as [E|[E|[E|[E|E]]]]; subst; discriminate.
Qed.

Lemma flat_map_escape_nil (s : jsstr) : flat_map escape_char s = [] -> s = [].
Proof.
  destruct s as [|c t]; [reflexivity|]. simpl. intros H.
  apply app_eq_nil in H as [H _]. exfalso. exact (escape_char_nonempty c H).
Qed.

Lemma escape_char_safe (c x : N) :
  In x (escape_char c) -> x <> 60%N /\ x <> 62%N /\ x <> 34%N /\ x <> 39%N.
Proof.
  destruct (escape_char_cases c) as [[E [H1 [H2 [H3 [H4 H5]]]]]|H].
  - rewrite E. intros [<-|[]]. auto.
  - destruct H as [E|[E|[E|[E|E]]]]; subst; simpl;
      intros Hx; repeat destruct Hx as [<-|Hx]; try destruct Hx;
      repeat split; discriminate.
Qed.

Lemma sanitizeText_flat_map (s : jsstr) :
  sanitizeText (Some s) = flat_map escape_char s.
Proof.
  destruct s as [|c t]; [reflexivity|].
  exact (sanitize_chain_flat_map (c :: t)).
Qed.

(** X1: [sanitizeText] escapes each character on its own: ampersand,
    less-than, greater-than, double quote and single quote become their
    entities, every other character is kept, and no entity written by one
    step is escaped again by a later one; undefined input gives the empty
    string. *)
Theorem sanitizeText_escape (s : jsstr) :
  sanitizeText (Some s) = flat_map escape_char s /\ sanitizeText None = [].
Proof. split; [apply sanitizeText_flat_map | reflexivity]. Qed.

(** X2: the output of [sanitizeText] never holds a less-than, a
    greater-than, a double quote or a single quote. *)
Theorem sanitizeText_safe (x : option jsstr) :
  ~ In 60%N (sanitizeText x) /\ ~ In 62%N (sanitizeText x)
  /\ ~ In 34%N (sanitizeText x) /\ ~ In 39%N (sanitizeText x).
Proof.
  assert (H : forall c, In c (sanitizeText x) ->
              c <> 60%N /\ c <> 62%N /\ c <> 34%N /\ c <> 39%N).
  { destruct x as [s|]; [|intros c []].
    rewrite sanitizeText_flat_map. intros c Hc.
    apply in_flat_map in Hc as [a [_ Ha]]. exact (escape_char_safe a c Ha). }
  split; [|split; [|split]]; intros Hc; apply H in Hc; tauto.
Qed.

(** X3: [sanitizeText] loses nothing: two strings with the same escaped
    form are equal. *)
Theorem sanitizeText_injective (a b : jsstr) :
  sanitizeText (Some a) = sanitizeText (Some b) -> a = b.
Proof.
  rewrite !sanitizeText_flat_map.
  revert b; induction a as [|x a IH]; intros b H.
  - symmetry. apply flat_map_escape_nil. symmetry. exact H.
  - destruct b as [|y b]; [exact (flat_map_escape_nil _ H)|].
    simpl in H. apply escape_char_prefix in H as [-> H].
    rewrite (IH b H). reflexivity.
Qed.

(** X4: a string without ampersand, less-than, greater-than, double quote
    or single quote comes back unchanged. *)
Theorem sanitizeText_plain (s : jsstr) :
  ~ In 38%N s -> ~ In 60%N s -> ~ In 62%N s -> ~ In 34%N s -> ~ In 39%N s ->
  sanitizeText (Some s) = s.
Proof.
  intros H1 H2 H3 H4 H5. rewrite sanitizeText_flat_map.
  induction s as [|c t IH]; [reflexivity|].
  simpl in *. rewrite IH by tauto.
  destruct (escape_char_cases c) as [[-> _]|H]; [reflexivity|].
  exfalso. destruct H as [E|[E|[E|[E|E]]]]; subst; tauto.
Qed.

Lemma sanitizeText_injective_witness :
  sanitizeText (Some (str "<b>")) = sanitizeText (Some (str "<b>"))
  /\ str "<b>" = str "<b>".
Proof.
  split; [reflexivity|]. apply sanitizeText_injective. reflexivity.
Defined.

Lemma sanitizeText_plain_witness :
  ~ In 38%N (str "ab") /\ sanitizeText (Some (str "ab")) = str "ab".
Proof.
  split; [not_in|].
  apply sanitizeText_plain; not_in.
Defined.

End SanitizeFacts.

Module FormatFacts.


















End FormatFacts.

Module ScheduleFacts.

Lemma Qle_bool_pos (x : Q) : 0 < x -> Qle_bool x 0 = false.
Proof.
  intros H. destruct (Qle_bool x 0) eqn:E; [|reflexivity].
  apply Qle_bool_iff in E. lra.
Qed.

Lemma floor_quarter (g : Q) :
  0 < g ->
  0 <= inject_Z (Qfloor (g / 4))
  /\ inject_Z (Qfloor (g / 4)) * 4 <= g < inject_Z (Qfloor (g / 4)) * 4 + 4.
Proof.
  intros Hg.
  pose proof (Qfloor_le (g / 4)) as H1.
  pose proof (Qlt_floor (g / 4)) as H2. rewrite inject_Z_plus in H2.
  change (inject_Z 1) with 1 in H2.
  assert (H0 : 0 <= inject_Z (Qfloor (g / 4))).
  { change 0 with (inject_Z 0). rewrite <- Zle_Qle.
    change 0%Z with (Qfloor 0). apply Qfloor_resp_le.
    apply Qle_shift_div_l; [reflexivity | lra]. }
  assert (Hq : g / 4 * 4 == g) by (field; discriminate).
  set (q := inject_Z (Qfloor (g / 4))) in *.
  split; [exact H0|]. split; lra.
Qed.

(** X7: on a positive grand total, Auto Split sets the first three slots to
    [floor(grandTotal / 4)] and the last to the rest; the four slots add up
    to the grand total and the last exceeds the others by less than 4. *)
Theorem autoSplit_shares (grandTotal : Q) (s : Schedule) :
  0 < grandTotal ->
  let s' := autoSplit grandTotal s in
  let q := inject_Z (Qfloor (grandTotal / 4)) in
  dp1 s' = q /\ t2 s' = q /\ t3 s' = q
  /\ dp1 s' + t2 s' + t3 s' + full s' == grandTotal
  /\ 0 <= q /\ q <= full s' < q + 4.
Proof.
  intros Hg. cbv zeta. unfold autoSplit. rewrite (Qle_bool_pos _ Hg). cbn [dp1 t2 t3 full].
  destruct (floor_quarter _ Hg) as [H0 [H1 H2]].
  set (q := inject_Z (Qfloor (grandTotal / 4))) in *.
  split; [reflexivity|]. split; [reflexivity|]. split; [reflexivity|].
  split; [ring|]. split; [exact H0|]. split; lra.
Qed.

Lemma pis_balance (g a b c d : Q) :
  balance (paymentIntegrityStatus g a b c d) = inject_Z (Qfloor g) - (a + b + c + d).
Proof.
  unfold paymentIntegrityStatus.
  repeat match goal with |- context [if ?x then _ else _] => destruct x end;
    reflexivity.
Qed.

Lemma pis_balanced (g a b c d : Q) :
  0 < g -> inject_Z (Qfloor g) - (a + b + c + d) == 0 ->
  status (paymentIntegrityStatus g a b c d) = BALANCED.
Proof.
  intros Hg H. unfold paymentIntegrityStatus. rewrite (Qle_bool_pos _ Hg).
  replace (Qeq_bool _ 0) with true; [reflexivity|].
  symmetry. apply Qeq_bool_iff. exact H.
Qed.

Lemma pis_over (g a b c d : Q) :
  0 < g -> inject_Z (Qfloor g) - (a + b + c + d) < 0 ->
  status (paymentIntegrityStatus g a b c d) = OVER.
Proof.
  intros Hg H. unfold paymentIntegrityStatus. cbv zeta. rewrite (Qle_bool_pos _ Hg).
  set (bal := inject_Z (Qfloor g) - (a + b + c + d)) in *.
  destruct (Qeq_bool bal 0) eqn:E; [apply Qeq_bool_iff in E; lra|].
  replace (Qle_bool bal 0) with true; [reflexivity|].
  symmetry. apply Qle_bool_iff. lra.
Qed.

(** X8: after Auto Split on a positive grand total the balance is
    [floor(grandTotal) - grandTotal]: the status is BALANCED when the grand
    total is an integer and OVER when it has a fractional part. *)
Theorem autoSplit_integrity (grandTotal : Q) (s : Schedule) :
  0 < grandTotal ->
  let r := integrity grandTotal (autoSplit grandTotal s) in
  balance r == inject_Z (Qfloor grandTotal) - grandTotal
  /\ (inject_Z (Qfloor grandTotal) == grandTotal -> status r = BALANCED)
  /\ (~ inject_Z (Qfloor grandTotal) == grandTotal -> status r = OVER).
Proof.
  intros Hg. cbv zeta. unfold integrity.
  assert (Hb : forall fl, fl - (dp1 (autoSplit grandTotal s) + t2 (autoSplit grandTotal s)
                 + t3 (autoSplit grandTotal s) + full (autoSplit grandTotal s))
               == fl - grandTotal).
  { intros fl. unfold autoSplit. rewrite (Qle_bool_pos _ Hg). cbn [dp1 t2 t3 full]. ring. }
  pose proof (Qfloor_le grandTotal) as Hfl.
  rewrite pis_balance. split; [apply Hb|]. split.
  - intros He. apply pis_balanced; [exact Hg|]. rewrite Hb, He. ring.
  - intros Hne. apply pis_over; [exact Hg|]. rewrite Hb.
    destruct (Qeq_dec (inject_Z (Qfloor grandTotal)) grandTotal) as [E|E];
      [contradiction | lra].
Qed.


(** X10: Fill Remaining right after Auto Split changes no slot. *)
Theorem fillRemaining_after_autoSplit (grandTotal : Q) (s : Schedule) :
  let a := autoSplit grandTotal s in
  let b := fillRemaining grandTotal a in
  dp1 b = dp1 a /\ t2 b = t2 a /\ t3 b = t3 a /\ full b == full a.
Proof.
  intros a b. unfold b, fillRemaining.
  destruct (Qle_bool grandTotal 0) eqn:E.
  - split; [reflexivity|]. split; [reflexivity|]. split; reflexivity.
  - cbn [dp1 t2 t3 full]. split; [reflexivity|]. split; [reflexivity|]. split; [reflexivity|].
    assert (Hg : 0 < grandTotal).
    { destruct (Qlt_le_dec 0 grandTotal) as [H|H]; [exact H|].
      apply Qle_bool_iff in H. congruence. }
    unfold a, autoSplit. rewrite E. cbn [dp1 t2 t3 full].
    destruct (floor_quarter _ Hg) as [H0 [H1 H2]].
    set (q := inject_Z (Qfloor (grandTotal / 4))) in *.
    rewrite Q.max_r by lra. ring.
Qed.

Lemma autoSplit_shares_witness :
  0 < 10 /\ full (autoSplit 10 (mkSchedule 0 0 0 0)) == 4
  /\ dp1 (autoSplit 10 (mkSchedule 0 0 0 0)) = 2.
Proof.
  assert (Hg : 0 < 10) by reflexivity.
  destruct (autoSplit_shares 10 (mkSchedule 0 0 0 0) Hg) as [H1 _].
  split; [exact Hg|]. split; [reflexivity | exact H1].
Defined.

Lemma autoSplit_integrity_witness :
  0 < (201 # 2)
  /\ status (integrity (201 # 2) (autoSplit (201 # 2) (mkSchedule 0 0 0 0))) = OVER
  /\ status (integrity 100 (autoSplit 100 (mkSchedule 0 0 0 0))) = BALANCED.
Proof.
  assert (Hg : 0 < (201 # 2)) by reflexivity.
  split; [exact Hg|]. split.
  - apply (autoSplit_integrity (201 # 2) (mkSchedule 0 0 0 0) Hg).
    intros H. vm_compute in H. discriminate H.
  - apply (autoSplit_integrity 100 (mkSchedule 0 0 0 0) ltac:(reflexivity)).
    reflexivity.
Defined.


End ScheduleFacts.

Module CartFacts.
Import TotalsFacts.


















End CartFacts.

Module PreviewFacts.
Import TextFacts ReplaceFacts NormalizeFacts LinesFacts.

Lemma occurs_single (c : N) (s : jsstr) : occurs [c] s = true <-> In c s.
Proof.
  induction s as [|x t IH]; [simpl; split; [discriminate | intros []]|].
  rewrite occurs_cons. simpl prefixb. rewrite andb_true_r, orb_true_iff, N.eqb_eq, IH.
  simpl. split; intros [H|H]; auto.
Qed.

Lemma normalize_no_cr (d : option jsstr) : ~ In 13%N (normalizeDescText d).
Proof.
  destruct d as [[|a u]|]; try (intros []).
  rewrite normalize_some_cons. intros H. apply occurs_single in H.
  apply trim_occurs in H. rewrite replace_cr_no_cr in H. discriminate.
Qed.

Lemma join_in (sep : N) (ws : list jsstr) (w : jsstr) (x : N) :
  In w ws -> In x w -> In x (join sep ws).
Proof.
  induction ws as [|w0 ws IH]; [intros []|].
  intros [<-|Hw] Hx.
  - destruct ws; [exact Hx|]. apply in_or_app. left. exact Hx.
  - destruct ws as [|w1 ws]; [destruct Hw|].
    change (join sep (w0 :: w1 :: ws)) with (w0 ++ sep :: join sep (w1 :: ws)).
    apply in_or_app. right. right. exact (IH Hw Hx).
Qed.

Lemma trim_sub (s : jsstr) (x : N) : In x (trim s) -> In x s.
Proof.
  destruct (trim_infix s) as [a [b Hs]]. intros H. rewrite Hs.
  apply in_or_app. right. apply in_or_app. left. exact H.
Qed.

Lemma strip_bullet_sub (line : jsstr) (x : N) : In x (strip_bullet line) -> In x line.
Proof.
  destruct line as [|m t]; [intros []|]. simpl. destruct (is_bullet m); [|auto].
  destruct (trimStart_suffix t) as [w [Hw _]]. intros H. right. rewrite Hw.
  apply in_or_app. right. exact H.
Qed.

Lemma descToLines_entry (d e : jsstr) :
  In e (descToLines (Some d)) ->
  e <> [] /\ (forall x, In x e -> In x d /\ x <> 10%N).
Proof.
  rewrite descToLines_concat. intros Hin.
  apply in_concat in Hin as [ls [Hls He]]. apply in_map_iff in Hls as [seg [<- Hseg]].
  unfold segment_lines in He.
  destruct (trim seg) as [|y l] eqn:Et; [destruct He|].
  destruct (trim (strip_bullet (y :: l))) as [|z zs] eqn:Ec; [destruct He|].
  destruct He as [<-|[]]. split; [discriminate|].
  intros x Hx. rewrite <- Ec in Hx.
  apply trim_sub, strip_bullet_sub in Hx. rewrite <- Et in Hx. apply trim_sub in Hx.
  split.
  - rewrite <- (split_on_join 10 d). exact (join_in _ _ _ _ Hseg Hx).
  - pose proof (split_on_no_sep 10 d) as Hf. rewrite Forall_forall in Hf.
    intros ->. exact (Hf seg Hseg Hx).
Qed.

Lemma join_with_in (sep : jsstr) (ls : list jsstr) (x : N) :
  In x (join_with sep ls) -> In x sep \/ exists e, In e ls /\ In x e.
Proof.
  induction ls as [|w ls IH]; [intros []|].
  destruct ls as [|w1 ls].
  - intros H. right. exists w. split; [left; reflexivity | exact H].
  - change (join_with sep (w :: w1 :: ls)) with (w ++ sep ++ join_with sep (w1 :: ls)).
    intros H. apply in_app_or in H as [H|H]; [right; exists w; split; [left|]; auto|].
    apply in_app_or in H as [H|H]; [left; exact H|].
    destruct (IH H) as [H'|[e [He Hx]]]; [left; exact H'|].
    right. exists e. split; [right; exact He | exact Hx].
Qed.

Lemma join_with_nonempty (sep : jsstr) (w : jsstr) (ls : list jsstr) :
  w <> [] -> join_with sep (w :: ls) <> [].
Proof.
  intros Hw. destruct ls as [|w1 ls]; [exact Hw|].
  change (join_with sep (w :: w1 :: ls)) with (w ++ sep ++ join_with sep (w1 :: ls)).
  intros H. apply app_eq_nil in H as [H _]. exact (Hw H).
Qed.

(** X16: the description preview shows the first three lines of
    [descToLines(normalizeDescText(d))] joined by [" • "], and
    ["No details"] exactly when there is no line; it never holds a line
    feed or a carriage return. *)
Theorem descPreview_spec (d : option jsstr) :
  descPreview d
  = match firstn 3 (descToLines (Some (normalizeDescText d))) with
    | [] => str "No details"
    | ls => join_with [32; 8226; 32]%N ls
    end
  /\ ~ In 10%N (descPreview d) /\ ~ In 13%N (descPreview d).
Proof.
  assert (Hent : forall e, In e (firstn 3 (descToLines (Some (normalizeDescText d)))) ->
            e <> [] /\ (forall x, In x e -> In x (normalizeDescText d) /\ x <> 10%N)).
  { intros e He. apply descToLines_entry. rewrite <- (firstn_skipn 3 (descToLines (Some (normalizeDescText d)))).
    apply in_or_app. left. exact He. }
  assert (Heq : descPreview d
      = match firstn 3 (descToLines (Some (normalizeDescText d))) with
        | [] => str "No details"
        | ls => join_with [32; 8226; 32]%N ls
        end).
  { unfold descPreview.
    destruct (firstn 3 (descToLines (Some (normalizeDescText d)))) as [|w ls] eqn:E;
      [reflexivity|].
    destruct (join_with _ (w :: ls)) eqn:Ej; [|reflexivity].
    exfalso. refine (join_with_nonempty _ _ _ _ Ej).
    apply (Hent w). left. reflexivity. }
  split; [exact Heq|]. rewrite Heq.
  destruct (firstn 3 (descToLines (Some (normalizeDescText d)))) as [|w ls] eqn:E.
  - split; intros H; repeat (destruct H as [H|H]; [discriminate H|]); destruct H.
  - assert (Hc : forall x, In x (join_with [32; 8226; 32]%N (w :: ls)) ->
                 x <> 10%N /\ x <> 13%N).
    { intros x Hx. apply join_with_in in Hx as [Hx|[e [He Hx]]].
      - repeat (destruct Hx as [<-|Hx]; [split; discriminate|]). destruct Hx.
      - destruct (Hent e He) as [_ Hx']. destruct (Hx' x Hx) as [Hin H10].
        split; [exact H10|]. intros ->. exact (normalize_no_cr d Hin). }
    split; intros H; apply Hc in H; tauto.
Qed.

End PreviewFacts.
